(** * In-memory record store and its user adapter

    A shallow embedding of [InMemoryDatabase<T>]
    (src/infrastructure/databases/in-memory.database.ts) and of
    [UserAdapterImpl] (src/infrastructure/adapters/user.adapter-impl.ts),
    with the properties the store's specification states about them. *)

From stdpp Require Import gmap strings list fin_maps.
From Stdlib Require Import ZArith Lia.

Open Scope string_scope.
Open Scope list_scope.
Open Scope Z_scope.

(** ** Attribute values and strict equality *)

(** The values an attribute of a record can hold.  Objects are compared by
    reference, so an object value is its reference.  Numbers are the integers
    and the one number that is not equal to itself. *)
Inductive value : Type :=
  | VUndefined
  | VNull
  | VBool (b : bool)
  | VNum (n : Z)
  | VNaN
  | VStr (s : string)
  | VRef (r : positive).

Global Instance value_eq_dec : EqDecision value.
Proof. solve_decision. Defined.

(** [a === b] *)
Definition strict_eq (a b : value) : bool :=
  match a, b with
  | VNaN, _ | _, VNaN => false
  | _, _ => bool_decide (a = b)
  end.

(** [a !== b] *)
Definition strict_neq (a b : value) : bool := negb (strict_eq a b).

(** ** Property access *)

(** [item[key]]: what a type must offer to be stored and searched.  A
    property that the value does not have reads as [VUndefined]. *)
Class Indexable (T : Type) := prop : T → string → value.

(** A plain object: its own enumerable properties. *)
Abbreviation object := (gmap string value).

Global Instance object_indexable : Indexable object :=
  λ o key, default VUndefined (o !! key).

(** The keys that [for (const key in obj)] visits, and that
    [Object.keys(obj)] lists.  The loop of the store returns the same in
    whatever order it visits them ([for_in_true]). *)
Definition keys (obj : object) : list string := (map_to_list obj).*1.

(** ** Arrays *)

Section array.
Context {T : Type}.

(** [Array.prototype.find] *)
Fixpoint array_find (f : T → bool) (a : list T) : option T :=
  match a with
  | [] => None
  | x :: rest => if f x then Some x else array_find f rest
  end.

(** [Array.prototype.findIndex]: the index of the first element that
    satisfies [f], or [-1]. *)
Fixpoint findIndex_from (f : T → bool) (a : list T) (i : Z) : Z :=
  match a with
  | [] => -1
  | x :: rest => if f x then i else findIndex_from f rest (i + 1)
  end.

Definition findIndex (f : T → bool) (a : list T) : Z := findIndex_from f a 0.

(** [Array.prototype.filter] *)
Fixpoint array_filter (f : T → bool) (a : list T) : list T :=
  match a with
  | [] => []
  | x :: rest => if f x then x :: array_filter f rest else array_filter f rest
  end.

(** [a.push(x)] *)
Definition push (x : T) (a : list T) : list T := a ++ [x].

(** [a[index] = x] for an index inside the array.  [update] only assigns
    at an index that [findIndex] returned and that is not [-1]; such an
    index is inside the array ([findIndex_bounds]), so the array never
    grows here and the other branch is not reached. *)
Definition array_set (index : Z) (x : T) (a : list T) : list T :=
  if bool_decide (0 ≤ index < Z.of_nat (length a))
  then <[Z.to_nat index := x]> a
  else a.

(** [a.splice(start, deleteCount)] with no items to insert: a negative
    [start] counts from the end, and both arguments are clamped to the
    array. *)
Definition splice (start deleteCount : Z) (a : list T) : list T :=
  let len := Z.of_nat (length a) in
  let from := if bool_decide (start < 0)
              then Z.max (len + start) 0
              else Z.min start len in
  let count := Z.min (Z.max deleteCount 0) (len - from) in
  take (Z.to_nat from) a ++ drop (Z.to_nat (from + count)) a.
End array.

(** ** Computations on the store *)

(** What a call produces: a returned value or a thrown [Error] with its
    message. *)
Inductive outcome (A : Type) : Type :=
  | Returned (a : A)
  | Thrown (message : string).
Global Arguments Returned {A} a.
Global Arguments Thrown {A} message.

(** A method of an object whose fields hold an [S]: it runs from the state
    before the call to an outcome and the state after it.  A throw keeps the
    state reached so far. *)
Definition method (S A : Type) : Type := S → outcome A * S.

Definition ret {S A} (a : A) : method S A := λ s, (Returned a, s).
Definition throw {S A} (message : string) : method S A :=
  λ s, (Thrown message, s).
Definition bind {S A B} (m : method S A) (k : A → method S B) : method S B :=
  λ s, match m s with
       | (Returned a, s') => k a s'
       | (Thrown message, s') => (Thrown message, s')
       end.
Definition get {S} : method S S := λ s, (Returned s, s).
Definition put {S} (s : S) : method S () := λ _, (Returned (), s).

Notation "'let*' x ':=' m 'in' k" := (bind m (λ x, k))
  (at level 10, x name, m at level 100, k at level 200, only parsing).

Definition result {S A} (m : method S A) (s : S) : outcome A := (m s).1.
Definition after {S A} (m : method S A) (s : S) : S := (m s).2.

(** ** InMemoryDatabase<T> *)

Module InMemoryDatabase.
Section database.
Context {T : Type} `{Indexable T}.

(** The private field [store: T[]]. *)
Definition store : Type := list T.

(** [new InMemoryDatabase<T>()] *)
Definition new : store := [].

(** The loop shared by [find] and [filter]:
    [for (const key in obj) { if (item[key] !== obj[key]) return false; }
     return true;] *)
Fixpoint for_in (ks : list string) (obj : object) (item : T) : bool :=
  match ks with
  | [] => true
  | key :: rest =>
      if strict_neq (prop item key) (prop obj key) then false
      else for_in rest obj item
  end.

Definition matches (obj : object) (item : T) : bool :=
  for_in (keys obj) obj item.

(** [(item) => item.id === id] *)
Definition has_id (id : string) (item : T) : bool :=
  strict_eq (prop item "id") (VStr id).

Definition find (obj : object) : method store (option T) :=
  let* s := get in
  ret (array_find (matches obj) s).

Definition findById (id : string) : method store (option T) :=
  let* s := get in
  ret (array_find (has_id id) s).

(** What [filter] hands back: the store's own array, or a new one. *)
Inductive records : Type :=
  | TheStore (contents : list T)
  | NewArray (contents : list T).

Definition contents (r : records) : list T :=
  match r with TheStore l | NewArray l => l end.

(** [filter(obj?)]: [None] is the omitted argument. *)
Definition filter (obj : option object) : method store records :=
  let* s := get in
  match obj with
  | None => ret (TheStore s)
  | Some o =>
      if bool_decide (Z.of_nat (length (keys o)) = 0) then ret (TheStore s)
      else ret (NewArray (array_filter (matches o) s))
  end.

Definition create (item : T) : method store () :=
  let* s := get in
  put (push item s).

Definition update (id : string) (item : T) : method store T :=
  let* s := get in
  let index := findIndex (has_id id) s in
  if bool_decide (index = -1) then throw "Item not found"
  else
    let* _ := put (array_set index item s) in
    ret item.

Definition delete (id : string) : method store () :=
  let* s := get in
  let index := findIndex (has_id id) s in
  if bool_decide (index = -1) then throw "Item not found"
  else put (splice index 1 s).
End database.
End InMemoryDatabase.

(** ** The User entity *)

Record User : Type := mkUser {
  id : string;
  username : string;
  password : string
}.

Global Instance User_eq_dec : EqDecision User.
Proof. solve_decision. Defined.

Global Instance User_indexable : Indexable User :=
  λ u key,
    if bool_decide (key = "id") then VStr (id u)
    else if bool_decide (key = "username") then VStr (username u)
    else if bool_decide (key = "password") then VStr (password u)
    else VUndefined.

(** ** UserAdapterImpl *)

Module UserAdapterImpl.
(** The private field [database: InMemoryDatabase<User>]. *)
Definition adapter : Type := InMemoryDatabase.store (T := User).

Definition new : adapter := InMemoryDatabase.new.

(** [user] is a [User] or [undefined]; a [User] is an object, which is
    never falsy, so [!user] holds for [undefined] alone. *)
Definition getById (id : string) : method adapter User :=
  let* user := InMemoryDatabase.findById id in
  match user with
  | None => throw "User not found"
  | Some u => ret u
  end.

Definition add (user : User) : method adapter () :=
  InMemoryDatabase.create user.
End UserAdapterImpl.

(** ** Calls on a database, run one after the other *)

Section calls.
Context {T : Type} `{Indexable T}.

(** One call of a method of the database. *)
Inductive call : Type :=
  | Find (obj : object)
  | FindById (id : string)
  | Filter (obj : option object)
  | Create (item : T)
  | Update (id : string) (item : T)
  | Delete (id : string).

(** The store after a call, whether the call returned or threw. *)
Definition step (c : call) (s : list T) : list T :=
  match c with
  | Find obj => after (InMemoryDatabase.find obj) s
  | FindById id => after (InMemoryDatabase.findById id) s
  | Filter obj => after (InMemoryDatabase.filter obj) s
  | Create item => after (InMemoryDatabase.create item) s
  | Update id item => after (InMemoryDatabase.update id item) s
  | Delete id => after (InMemoryDatabase.delete id) s
  end.

Fixpoint steps (cs : list call) (s : list T) : list T :=
  match cs with
  | [] => s
  | c :: rest => steps rest (step c s)
  end.

(** A call that neither updates nor deletes the record found under [i]:
    its target identifier, if it has one, is not [i]. *)
Definition spares (i : string) (c : call) : bool :=
  match c with
  | Update id _ | Delete id => negb (bool_decide (id = i))
  | _ => true
  end.

(** A call that, besides, stores no other record under [i]. *)
Definition keeps (i : string) (c : call) : bool :=
  match c with
  | Update id item =>
      negb (bool_decide (id = i)) && negb (InMemoryDatabase.has_id i item)
  | Delete id => negb (bool_decide (id = i))
  | _ => true
  end.
End calls.

(** ** What the statements say about a record *)

Section predicates.
Context {T : Type} `{Indexable T}.

(** [x] carries the identifier [i]. *)
Definition identified (i : string) (x : T) : Prop := prop x "id" = VStr i.

Global Instance identified_dec i x : Decision (identified i x).
Proof. unfold identified. apply _. Defined.

(** [x] agrees with every key/value pair of [obj]. *)
Definition satisfies (obj : object) (x : T) : Prop :=
  map_Forall (λ key v, strict_eq (prop x key) v = true) obj.

Global Instance satisfies_dec obj x : Decision (satisfies obj x).
Proof. unfold satisfies. apply _. Defined.
End predicates.

(** ** UserPort, UserApplicationService and UserController *)

(** [interface UserPort]: the two methods an adapter implements, over the
    state [P] that the implementing object holds. *)
Module UserPort.
Class UserPort (P : Type) : Type := {
  getById : string → method P User;
  add : User → method P ()
}.
End UserPort.

(** [class UserAdapterImpl implements UserPort] *)
Global Instance UserAdapterImpl_port :
    UserPort.UserPort UserAdapterImpl.adapter := {|
  UserPort.getById := UserAdapterImpl.getById;
  UserPort.add := UserAdapterImpl.add
|}.

Module UserApplicationService.
Section service.
Context {P : Type} `{UserPort.UserPort P}.

(** The private field [userPort: UserPort], set by the constructor. *)
Definition service : Type := P.

Definition getUser (id : string) : method service User :=
  UserPort.getById id.

Definition createUser (user : User) : method service () :=
  UserPort.add user.
End service.
End UserApplicationService.

Module UserController.
Section controller.
Context {P : Type} `{UserPort.UserPort P}.

(** The private field [userApplicationService], set by the constructor. *)
Definition controller : Type := UserApplicationService.service (P := P).

Definition getUser (id : string) : method controller User :=
  UserApplicationService.getUser id.

Definition createUser (id username password : string) : method controller () :=
  let user := mkUser id username password in
  UserApplicationService.createUser user.
End controller.
End UserController.

(** The arguments of one [createUser] call of the controller. *)
Definition registration : Type := string * string * string.

(** The user that [createUser] builds from its arguments. *)
Definition registered (r : registration) : User :=
  let '(i, u, p) := r in mkUser i u p.

(** The controller's state after a sequence of [createUser] calls. *)
Fixpoint register_all {P : Type} `{UserPort.UserPort P}
    (rs : list registration) (c : P) : P :=
  match rs with
  | [] => c
  | (i, u, p) :: rest =>
      register_all rest (after (UserController.createUser i u p) c)
  end.

(** The first registration made under the identifier [i]. *)
Fixpoint first_registration (i : string) (rs : list registration)
    : option registration :=
  match rs with
  | [] => None
  | (j, u, p) :: rest =>
      if bool_decide (j = i) then Some (j, u, p) else first_registration i rest
  end.

(** ** The identifiers in a store *)

Section identifiers.
Context {T : Type} `{Indexable T}.

(** The [id] attributes of the records, in store order. *)
Definition ids (s : list T) : list value := (λ x, prop x "id") <$> s.

(** The calls of a caller that keeps identifiers unique: it creates a
    record only under an identifier that no stored record carries, and
    updates a record only with one that carries the identifier it targets. *)
Definition disciplined (s : list T) (c : @call T) : Prop :=
  match c with
  | Create item => prop item "id" ∉ ids s
  | Update id item => identified id item
  | _ => True
  end.

(** How many records a call adds to [s] or removes from it. *)
Definition growth (c : @call T) (s : list T) : Z :=
  match c with
  | Create _ => 1
  | Delete id => if existsb (InMemoryDatabase.has_id id) s then -1 else 0
  | _ => 0
  end.
End identifiers.

(** ** Strict equality *)

Lemma strict_eq_true (a b : value) :
  strict_eq a b = true ↔ a = b ∧ a ≠ VNaN.
Proof.
  destruct a, b; simpl; rewrite ?bool_decide_eq_true;
    split; try (intros [? ?]); try split; congruence.
Qed.

Lemma strict_eq_str (a : value) (s : string) :
  strict_eq a (VStr s) = true ↔ a = VStr s.
Proof. rewrite strict_eq_true. split; [tauto | intros ->; done]. Qed.

Lemma strict_eq_str_false (a : value) (s : string) :
  strict_eq a (VStr s) = false ↔ a ≠ VStr s.
Proof.
  rewrite <- strict_eq_str. destruct (strict_eq a (VStr s)); split; congruence.
Qed.

(** ** Arrays *)

Section array_facts.
Context {T : Type}.
Implicit Types (f : T → bool) (a pre post : list T) (x : T).

Lemma array_find_app f a b :
  array_find f (a ++ b) =
    match array_find f a with Some x => Some x | None => array_find f b end.
Proof.
  induction a as [|y a IH]; simpl; [done |]. by destruct (f y).
Qed.

Lemma array_find_none f a :
  array_find f a = None ↔ Forall (λ x, f x = false) a.
Proof.
  induction a as [|y a IH]; simpl.
  - split; [constructor | done].
  - destruct (f y) eqn:Hy.
    + split; [done |]. inversion 1; congruence.
    + rewrite IH. split; [by constructor | by inversion 1].
Qed.

Lemma array_find_first f pre x post :
  Forall (λ y, f y = false) pre → f x = true →
  array_find f (pre ++ x :: post) = Some x.
Proof.
  intros Hpre Hx. rewrite array_find_app.
  apply array_find_none in Hpre as ->. simpl. by rewrite Hx.
Qed.

(** What [array_find] returns is the first element that satisfies [f]. *)
Lemma array_find_some f a x :
  array_find f a = Some x →
  ∃ pre post, a = pre ++ x :: post ∧ Forall (λ y, f y = false) pre ∧
              f x = true.
Proof.
  induction a as [|y a IH]; simpl; [done |].
  destruct (f y) eqn:Hy.
  - intros [= ->]. by exists [], a.
  - intros (pre & post & -> & Hpre & Hx)%IH.
    exists (y :: pre), post. split_and!; [done | by constructor | done].
Qed.

Lemma findIndex_from_none f a i :
  Forall (λ x, f x = false) a → findIndex_from f a i = -1.
Proof.
  intros Ha. revert i. induction Ha as [|y a Hy _ IH]; intros i; simpl;
    [done |]. by rewrite Hy.
Qed.

Lemma findIndex_from_first f pre x post i :
  Forall (λ y, f y = false) pre → f x = true →
  findIndex_from f (pre ++ x :: post) i = i + Z.of_nat (length pre).
Proof.
  intros Hpre Hx. revert i.
  induction Hpre as [|y pre Hy _ IH]; intros i; simpl.
  - rewrite Hx. lia.
  - rewrite Hy, IH. lia.
Qed.

(** Every array either holds no element that satisfies [f], or splits at
    the first one. *)
Lemma first_split f a :
  Forall (λ x, f x = false) a ∨
  ∃ pre x post, a = pre ++ x :: post ∧ Forall (λ y, f y = false) pre ∧
                f x = true.
Proof.
  destruct (array_find f a) as [x|] eqn:Hfind.
  - right. apply array_find_some in Hfind as (pre & post & ?). by exists pre, x, post.
  - left. by apply array_find_none.
Qed.

Lemma findIndex_bounds f a :
  findIndex f a = -1 ∨ 0 ≤ findIndex f a < Z.of_nat (length a).
Proof.
  unfold findIndex.
  destruct (first_split f a) as [Ha | (pre & x & post & -> & Hpre & Hx)].
  - left. by apply findIndex_from_none.
  - right. rewrite findIndex_from_first by done.
    rewrite length_app. simpl. lia.
Qed.

Lemma array_set_first pre x post y :
  array_set (Z.of_nat (length pre)) y (pre ++ x :: post) = pre ++ y :: post.
Proof.
  unfold array_set. rewrite bool_decide_eq_true_2.
  - rewrite Nat2Z.id.
    replace (length pre) with (length pre + 0)%nat at 1 by lia.
    by rewrite insert_app_r.
  - rewrite length_app. simpl. lia.
Qed.

Lemma splice_first pre x post :
  splice (Z.of_nat (length pre)) 1 (pre ++ x :: post) = pre ++ post.
Proof.
  unfold splice. rewrite bool_decide_eq_false_2 by lia.
  rewrite length_app. simpl length.
  rewrite Z.min_l by lia. rewrite Z.min_l by lia.
  rewrite Nat2Z.id.
  replace (Z.to_nat (Z.of_nat (length pre) + Z.max 1 0)) with (S (length pre))
    by lia.
  rewrite take_app_length.
  replace (S (length pre)) with (length (pre ++ [x])).
  - by rewrite (cons_middle x pre post), (assoc_L (++)), drop_app_length.
  - rewrite length_app. simpl. lia.
Qed.

Lemma array_filter_filter f a :
  array_filter f a = base.filter (λ x, f x = true) a.
Proof.
  induction a as [|y a IH]; simpl; [done |].
  rewrite filter_cons. destruct (f y) eqn:Hy.
  - rewrite decide_True by done. by rewrite IH.
  - rewrite decide_False by congruence. done.
Qed.

Lemma filter_all (P : T → Prop) `{!∀ x, Decision (P x)} a :
  (∀ x, P x) → base.filter P a = a.
Proof.
  intros HP. induction a as [|y a IH]; [done |].
  by rewrite filter_cons_True, IH.
Qed.

Lemma array_filter_app f a b :
  array_filter f (a ++ b) = array_filter f a ++ array_filter f b.
Proof.
  induction a as [|y a IH]; simpl; [done |].
  destruct (f y); simpl; by rewrite IH.
Qed.
End array_facts.

(** ** The methods of the store *)

Section database_facts.
Context {T : Type} `{Indexable T}.
Implicit Types (s pre post : list T) (x item : T) (i : string) (obj : object).

Lemma has_id_true i x : InMemoryDatabase.has_id i x = true ↔ identified i x.
Proof. apply strict_eq_str. Qed.

Lemma has_id_false i x :
  InMemoryDatabase.has_id i x = false ↔ ¬ identified i x.
Proof. apply strict_eq_str_false. Qed.

Lemma has_id_other i j x :
  identified j x → i ≠ j → InMemoryDatabase.has_id i x = false.
Proof.
  intros Hj Hne. apply has_id_false. unfold identified in *. congruence.
Qed.

Lemma Forall_has_id_false i s :
  Forall (λ x, InMemoryDatabase.has_id i x = false) s ↔
  Forall (λ x, ¬ identified i x) s.
Proof. apply Forall_iff. intros x. apply has_id_false. Qed.

Lemma for_in_true (ks : list string) obj x :
  InMemoryDatabase.for_in ks obj x = true ↔
  ∀ key, key ∈ ks → strict_eq (prop x key) (prop obj key) = true.
Proof.
  induction ks as [|key ks IH]; simpl.
  - split; [intros _ key Hin; inversion Hin | done].
  - unfold strict_neq.
    destruct (strict_eq (prop x key) (prop obj key)) eqn:Hkey; simpl.
    + rewrite IH. split.
      * intros Hks k [->|Hin]%elem_of_cons; auto.
      * intros Hks k Hin. apply Hks. by right.
    + split; [done |]. intros Hks. rewrite <- Hkey. apply Hks. by left.
Qed.

Lemma elem_of_keys obj key : key ∈ keys obj ↔ is_Some (obj !! key).
Proof.
  unfold keys. rewrite list_elem_of_fmap. split.
  - intros ([k v] & -> & Hkv%elem_of_map_to_list). by exists v.
  - intros [v Hv]. exists (key, v). split; [done |].
    by apply elem_of_map_to_list.
Qed.

(** The loop over the keys of [obj] decides [satisfies]. *)
Lemma matches_true obj x :
  InMemoryDatabase.matches obj x = true ↔ satisfies obj x.
Proof.
  unfold InMemoryDatabase.matches, satisfies. rewrite for_in_true. split.
  - intros Hks key v Hv.
    specialize (Hks key (proj2 (elem_of_keys obj key) (mk_is_Some _ _ Hv))).
    unfold prop at 2, object_indexable in Hks. by rewrite Hv in Hks.
  - intros Hobj key [v Hv]%elem_of_keys.
    unfold prop at 2, object_indexable. rewrite Hv. simpl. by eapply Hobj.
Qed.

Lemma matches_empty x : InMemoryDatabase.matches ∅ x = true.
Proof. apply matches_true. apply map_Forall_empty. Qed.

Lemma matches_singleton key v x :
  InMemoryDatabase.matches {[key := v]} x = strict_eq (prop x key) v.
Proof.
  apply eq_true_iff_eq. rewrite matches_true. unfold satisfies.
  by rewrite map_Forall_singleton.
Qed.

Lemma keys_empty_iff obj : Z.of_nat (length (keys obj)) = 0 ↔ obj = ∅.
Proof.
  unfold keys. rewrite length_fmap, length_map_to_list. split.
  - intros Hsize. apply map_size_empty_iff. lia.
  - intros ->. by rewrite map_size_empty.
Qed.

Lemma array_find_ext (f g : T → bool) s :
  (∀ x, f x = g x) → array_find f s = array_find g s.
Proof.
  intros Hfg. induction s as [|y s IH]; simpl; [done |].
  by rewrite Hfg, IH.
Qed.

(** *** update and delete, by cases on the first record under [i] *)

Lemma update_miss i item s :
  Forall (λ x, ¬ identified i x) s →
  InMemoryDatabase.update i item s = (Thrown "Item not found", s).
Proof.
  intros Hs%Forall_has_id_false.
  unfold InMemoryDatabase.update, bind, get, throw, findIndex.
  by rewrite findIndex_from_none.
Qed.

Lemma delete_miss i s :
  Forall (λ x, ¬ identified i x) s →
  InMemoryDatabase.delete i s = (Thrown "Item not found", s).
Proof.
  intros Hs%Forall_has_id_false.
  unfold InMemoryDatabase.delete, bind, get, throw, findIndex.
  by rewrite findIndex_from_none.
Qed.

Lemma update_hit i item pre x post :
  Forall (λ y, ¬ identified i y) pre → identified i x →
  InMemoryDatabase.update i item (pre ++ x :: post) =
    (Returned item, pre ++ item :: post).
Proof.
  intros Hpre%Forall_has_id_false Hx%has_id_true.
  unfold InMemoryDatabase.update, bind, get, put, ret, throw, findIndex.
  rewrite findIndex_from_first by done.
  rewrite bool_decide_eq_false_2 by lia.
  by rewrite Z.add_0_l, array_set_first.
Qed.

Lemma delete_hit i pre x post :
  Forall (λ y, ¬ identified i y) pre → identified i x →
  InMemoryDatabase.delete i (pre ++ x :: post) = (Returned (), pre ++ post).
Proof.
  intros Hpre%Forall_has_id_false Hx%has_id_true.
  unfold InMemoryDatabase.delete, bind, get, put, ret, throw, findIndex.
  rewrite findIndex_from_first by done.
  rewrite bool_decide_eq_false_2 by lia.
  by rewrite Z.add_0_l, splice_first.
Qed.

(** A store holds a record under [i] exactly when it splits at the first
    such record. *)
Lemma first_identified i s :
  Exists (identified i) s →
  ∃ pre x post, s = pre ++ x :: post ∧
                Forall (λ y, ¬ identified i y) pre ∧ identified i x.
Proof.
  intros Hs.
  destruct (first_split (InMemoryDatabase.has_id i) s)
    as [Hnone | (pre & x & post & -> & Hpre & Hx)].
  - apply Forall_has_id_false in Hnone.
    apply Exists_exists in Hs as (x & Hin & Hx).
    rewrite Forall_forall in Hnone. by destruct (Hnone x Hin).
  - exists pre, x, post.
    split_and!; [done | by apply Forall_has_id_false | by apply has_id_true].
Qed.

Lemma findById_first i pre x post :
  Forall (λ y, ¬ identified i y) pre → identified i x →
  InMemoryDatabase.findById i (pre ++ x :: post) =
    (Returned (Some x), pre ++ x :: post).
Proof.
  intros Hpre%Forall_has_id_false Hx%has_id_true.
  unfold InMemoryDatabase.findById, bind, get, ret.
  by rewrite array_find_first.
Qed.

Lemma findById_none i s :
  Forall (λ y, ¬ identified i y) s →
  InMemoryDatabase.findById i s = (Returned None, s).
Proof.
  intros Hs%Forall_has_id_false%array_find_none.
  unfold InMemoryDatabase.findById, bind, get, ret. by rewrite Hs.
Qed.

Lemma find_first_match obj s :
  InMemoryDatabase.find obj s =
    (Returned (array_find (InMemoryDatabase.matches obj) s), s).
Proof. done. Qed.

Lemma filter_empty s :
  InMemoryDatabase.filter (Some ∅) s =
    (Returned (InMemoryDatabase.TheStore s), s).
Proof. done. Qed.

(** With an argument, [filter] returns the records that satisfy it, in the
    order of the store, and leaves the store as it is. *)
Lemma filter_contents obj s :
  ∃ rs, InMemoryDatabase.filter (Some obj) s = (Returned rs, s) ∧
        InMemoryDatabase.contents rs = base.filter (satisfies obj) s.
Proof.
  unfold InMemoryDatabase.filter, bind, get, ret.
  case_bool_decide as Hobj; simpl; eexists; (split; [done |]); simpl.
  - apply keys_empty_iff in Hobj as ->.
    symmetry. apply filter_all. intros y. apply map_Forall_empty.
  - rewrite array_filter_filter. apply list_filter_iff.
    intros y. apply matches_true.
Qed.
End database_facts.

(** ** create, then findById *)

Section create_findById.
Context {T : Type} `{Indexable T}.
Implicit Types (s : list T) (r x : T) (i : string).

Lemma step_create r s : step (Create r) s = s ++ [r].
Proof. done. Qed.

Lemma step_read (c : call) s :
  match c with Find _ | FindById _ | Filter _ => True | _ => False end →
  step c s = s.
Proof.
  destruct c as [obj|id|[obj|]| | |]; try done; intros _; simpl.
  unfold after, InMemoryDatabase.filter, bind, get, ret.
  by case_bool_decide.
Qed.

(** A call that [keeps] the identifier [i] does not change which record,
    if any, is the first one under [i], once there is one. *)
Lemma keeps_first (c : call) i r s :
  keeps i c = true →
  array_find (InMemoryDatabase.has_id i) s = Some r →
  array_find (InMemoryDatabase.has_id i) (step c s) = Some r.
Proof.
  intros Hkeeps Hfind.
  destruct c as [obj|id|obj|item|id item|id];
    try (rewrite step_read by done; exact Hfind).
  - rewrite step_create, array_find_app. by rewrite Hfind.
  - simpl in Hkeeps. apply andb_true_iff in Hkeeps as [Hid Hitem].
    apply negb_true_iff, bool_decide_eq_false in Hid.
    apply negb_true_iff in Hitem.
    destruct (first_split (InMemoryDatabase.has_id id) s)
      as [Hnone | (pre & x & post & -> & Hpre & Hx)]; simpl; unfold after.
    + apply Forall_has_id_false in Hnone. by rewrite update_miss.
    + apply Forall_has_id_false in Hpre. apply has_id_true in Hx.
      rewrite (update_hit id item pre x post) by done. simpl.
      rewrite array_find_app in Hfind |- *. simpl in *.
      rewrite (has_id_other i id x) in Hfind by done.
      by rewrite Hitem.
  - simpl in Hkeeps. apply negb_true_iff, bool_decide_eq_false in Hkeeps.
    destruct (first_split (InMemoryDatabase.has_id id) s)
      as [Hnone | (pre & x & post & -> & Hpre & Hx)]; simpl; unfold after.
    + apply Forall_has_id_false in Hnone. by rewrite delete_miss.
    + apply Forall_has_id_false in Hpre. apply has_id_true in Hx.
      rewrite (delete_hit id pre x post) by done. simpl.
      rewrite array_find_app in Hfind |- *. simpl in *.
      by rewrite (has_id_other i id x) in Hfind.
Qed.

Lemma keeps_first_steps (cs : list call) i r s :
  Forall (λ c, keeps i c = true) cs →
  array_find (InMemoryDatabase.has_id i) s = Some r →
  array_find (InMemoryDatabase.has_id i) (steps cs s) = Some r.
Proof.
  intros Hcs. revert s.
  induction Hcs as [|c cs Hc _ IH]; intros s Hfind; simpl; [done |].
  apply IH. by apply keeps_first.
Qed.

(** C1, as amended.  A record [r] with identifier [i] that is created in a
    store holding no record under [i] is what [findById i] returns after
    any sequence of calls in which no update or delete targets [i] and no
    update stores another record under [i]. *)
Theorem create_then_findById (s : list T) (r : T) (i : string)
    (cs : list call) :
  identified i r →
  Forall (λ x, ¬ identified i x) s →
  Forall (λ c, keeps i c = true) cs →
  let s' := steps cs (after (InMemoryDatabase.create r) s) in
  InMemoryDatabase.findById i s' = (Returned (Some r), s').
Proof.
  intros Hr Hs Hcs s'.
  unfold InMemoryDatabase.findById, bind, get, ret.
  subst s'. rewrite (keeps_first_steps cs i r); [done | done |].
  change (after (InMemoryDatabase.create r) s) with (s ++ [r]).
  replace (s ++ [r]) with (s ++ r :: []) by done.
  apply array_find_first; [by apply Forall_has_id_false | by apply has_id_true].
Qed.
End create_findById.

Lemma create_then_findById_witness :
  let r := mkUser "1" "alice" "pw" in
  let s := [mkUser "2" "bob" "pw2"] in
  let cs := [Create (mkUser "3" "carol" "x");
             Update "2" (mkUser "2" "bobby" "pw2");
             Filter None;
             Delete "3";
             Delete "7"] in
  let s' := steps cs (after (InMemoryDatabase.create r) s) in
  InMemoryDatabase.findById "1" s' = (Returned (Some r), s').
Proof.
  intros r s cs. apply (create_then_findById s r "1" cs).
  - reflexivity.
  - repeat constructor. vm_compute. discriminate.
  - repeat constructor.
Defined.

(** C1, as stated, fails in a store that already holds a record under the
    same identifier, and also when an update of another identifier stores an
    earlier record under the identifier of [r]. *)
Lemma create_then_findById_first_wins :
  let r := mkUser "1" "bob" "pw2" in
  let old := mkUser "1" "alice" "pw" in
  let cs := [Update "2" old] in
  (result (InMemoryDatabase.findById "1")
     (steps [] (after (InMemoryDatabase.create r) [old]))
   = Returned (Some old) ∧ old ≠ r) ∧
  (forallb (spares "1") cs = true ∧
   Forall (λ x, ¬ identified "1" x) [mkUser "2" "dave" "y"] ∧
   result (InMemoryDatabase.findById "1")
     (steps cs (after (InMemoryDatabase.create r) [mkUser "2" "dave" "y"]))
   = Returned (Some old) ∧ old ≠ r).
Proof.
  intros r old cs. repeat split; try reflexivity; try discriminate.
  repeat constructor. vm_compute. discriminate.
Qed.

(** ** update and delete *)

Section update_delete.
Context {T : Type} `{Indexable T}.
Implicit Types (s pre post : list T) (x item : T) (i : string).

(** C2.  When no record of the store carries the identifier, [update] and
    [delete] throw "Item not found" and the store is what it was. *)
Theorem update_delete_not_found (s : list T) (i : string) (item : T) :
  Forall (λ x, ¬ identified i x) s →
  InMemoryDatabase.update i item s = (Thrown "Item not found", s) ∧
  InMemoryDatabase.delete i s = (Thrown "Item not found", s).
Proof.
  intros Hs. split; [by apply update_miss | by apply delete_miss].
Qed.

(** C3, as amended.  When some record carries the identifier [i],
    [update i r2] returns [r2] and puts it at the position of the first
    such record; the records before and after it and the length of the
    store are unchanged.  Afterwards [findById] on the identifier of [r2]
    returns [r2] provided no record before that position carries the
    identifier of [r2], which is so whenever [r2] carries [i] itself. *)
Theorem update_replaces_first (s : list T) (i : string) (r2 : T) :
  Exists (identified i) s →
  ∃ pre x post,
    s = pre ++ x :: post ∧
    Forall (λ y, ¬ identified i y) pre ∧ identified i x ∧
    InMemoryDatabase.update i r2 s = (Returned r2, pre ++ r2 :: post) ∧
    length (pre ++ r2 :: post) = length s ∧
    (∀ j, (pre ++ r2 :: post) !! j =
          if decide (j = length pre) then Some r2 else s !! j) ∧
    (∀ i2, identified i2 r2 →
           Forall (λ y, ¬ identified i2 y) pre →
           InMemoryDatabase.findById i2 (pre ++ r2 :: post) =
             (Returned (Some r2), pre ++ r2 :: post)) ∧
    (identified i r2 →
     InMemoryDatabase.findById i (pre ++ r2 :: post) =
       (Returned (Some r2), pre ++ r2 :: post)).
Proof.
  intros (pre & x & post & -> & Hpre & Hx)%first_identified.
  exists pre, x, post. split_and!; try done.
  - by apply update_hit.
  - rewrite !length_app. done.
  - intros j. case_decide as Hj.
    + subst j. by rewrite list_lookup_middle.
    + destruct (decide (j < length pre)%nat).
      * by rewrite !lookup_app_l.
      * rewrite !lookup_app_r by lia.
        destruct (j - length pre)%nat as [|m] eqn:Hm; [lia | done].
  - intros i2 Hr2 Hpre2. by apply findById_first.
  - intros Hr2. by apply findById_first.
Qed.

(** C4.  When some record carries the identifier [i], [delete i] removes
    the first such record and nothing else: the records before and after
    it stay in their order and the store is one record shorter.  What
    [filter] returns afterwards is taken from the remaining records. *)
Theorem delete_removes_first (s : list T) (i : string) :
  Exists (identified i) s →
  ∃ pre x post,
    s = pre ++ x :: post ∧
    Forall (λ y, ¬ identified i y) pre ∧ identified i x ∧
    InMemoryDatabase.delete i s = (Returned (), pre ++ post) ∧
    S (length (pre ++ post)) = length s ∧
    InMemoryDatabase.filter None (pre ++ post) =
      (Returned (InMemoryDatabase.TheStore (pre ++ post)), pre ++ post) ∧
    (∀ obj, ∃ rs,
       InMemoryDatabase.filter (Some obj) (pre ++ post) =
         (Returned rs, pre ++ post) ∧
       InMemoryDatabase.contents rs =
         base.filter (satisfies obj) pre ++ base.filter (satisfies obj) post).
Proof.
  intros (pre & x & post & -> & Hpre & Hx)%first_identified.
  exists pre, x, post. split_and!; try done.
  - by apply delete_hit.
  - rewrite !length_app. simpl. lia.
  - intros obj. rewrite <- filter_app. apply filter_contents.
Qed.
End update_delete.

Lemma update_delete_not_found_witness :
  let s := [mkUser "1" "alice" "pw"; mkUser "2" "bob" "pw2"] in
  InMemoryDatabase.update "3" (mkUser "3" "carol" "x") s =
    (Thrown "Item not found", s) ∧
  InMemoryDatabase.delete "3" s = (Thrown "Item not found", s).
Proof.
  intros s. apply (update_delete_not_found s "3" (mkUser "3" "carol" "x")).
  repeat constructor; vm_compute; discriminate.
Defined.

Lemma update_replaces_first_witness :
  let s := [mkUser "1" "alice" "pw"; mkUser "2" "bob" "pw2"] in
  let r2 := mkUser "2" "bobby" "pw2" in
  ∃ pre x post,
    s = pre ++ x :: post ∧
    InMemoryDatabase.update "2" r2 s = (Returned r2, pre ++ r2 :: post).
Proof.
  intros s r2.
  destruct (update_replaces_first s "2" r2)
    as (pre & x & post & Hs & _ & _ & Hupdate & _).
  - apply Exists_cons_tl, Exists_cons_hd. reflexivity.
  - by exists pre, x, post.
Defined.

(** C3, as stated, fails when the replacement carries another identifier
    that an earlier record carries too: [findById] on it returns the earlier
    record. *)
Lemma update_other_id_first_wins :
  let old := mkUser "a" "x" "p" in
  let s := [old; mkUser "b" "y" "p"] in
  let r2 := mkUser "a" "z" "p" in
  Exists (identified "b") s ∧
  InMemoryDatabase.update "b" r2 s = (Returned r2, [old; r2]) ∧
  InMemoryDatabase.findById "a" [old; r2] = (Returned (Some old), [old; r2]) ∧
  old ≠ r2.
Proof.
  intros old s r2. split_and!; try reflexivity; try discriminate.
  apply Exists_cons_tl, Exists_cons_hd. reflexivity.
Qed.

Lemma delete_removes_first_witness :
  let s := [mkUser "1" "alice" "pw"; mkUser "2" "bob" "pw2";
            mkUser "1" "carol" "x"] in
  ∃ pre x post,
    s = pre ++ x :: post ∧
    InMemoryDatabase.delete "1" s = (Returned (), pre ++ post).
Proof.
  intros s.
  destruct (delete_removes_first s "1")
    as (pre & x & post & Hs & _ & _ & Hdelete & _).
  - apply Exists_cons_hd. reflexivity.
  - by exists pre, x, post.
Defined.

(** ** The read operations *)

Section reads.
Context {T : Type} `{Indexable T}.
Implicit Types (s pre post : list T) (x : T) (i : string) (obj : object).

Lemma filter_none_iff (P : T → Prop) `{!∀ x, Decision (P x)} s :
  base.filter P s = [] ↔ Forall (λ x, ¬ P x) s.
Proof.
  induction s as [|y s IH]; [by split; [constructor |] |].
  rewrite filter_cons. case_decide as Hy.
  - split; [done |]. by inversion 1.
  - rewrite IH. split; [by constructor | by inversion 1].
Qed.

(** C5.  Without an argument, or with an object that has no keys, [filter]
    returns the records of the store in their order.  With the single
    pair [key]/[v] it returns, in the order of the store, the records whose
    [key] is strictly equal to [v] (for any [v] but NaN: whose [key] is
    [v]), and with any object the records that agree with every pair. *)
Theorem filter_returns_matching (s : list T) :
  InMemoryDatabase.filter None s =
    (Returned (InMemoryDatabase.TheStore s), s) ∧
  InMemoryDatabase.filter (Some ∅) s =
    (Returned (InMemoryDatabase.TheStore s), s) ∧
  (∀ key v, ∃ rs,
     InMemoryDatabase.filter (Some {[key := v]}) s = (Returned rs, s) ∧
     InMemoryDatabase.contents rs =
       base.filter (λ x, strict_eq (prop x key) v = true) s ∧
     (v ≠ VNaN →
      InMemoryDatabase.contents rs = base.filter (λ x, prop x key = v) s)) ∧
  (∀ obj, ∃ rs,
     InMemoryDatabase.filter (Some obj) s = (Returned rs, s) ∧
     InMemoryDatabase.contents rs = base.filter (satisfies obj) s).
Proof.
  split_and!; [done | done | | intros obj; apply filter_contents].
  intros key v.
  destruct (filter_contents {[key := v]} s) as (rs & Hfilter & Hrs).
  exists rs. split_and!; [done | |].
  - rewrite Hrs. apply list_filter_iff. intros x.
    unfold satisfies. by rewrite map_Forall_singleton.
  - intros Hv. rewrite Hrs. apply list_filter_iff. intros x.
    unfold satisfies. rewrite map_Forall_singleton, strict_eq_true.
    split; [tauto |]. intros Hx. split; [done | congruence].
Qed.

(** C6.  [findById i] is [find] on the object whose one pair sets "id" to
    [i]: both return the first record of the store that carries [i], and
    nothing when no record does. *)
Theorem findById_is_find (s : list T) (i : string) :
  InMemoryDatabase.findById i s =
    InMemoryDatabase.find {["id" := VStr i]} s ∧
  ((∃ pre x post,
      s = pre ++ x :: post ∧
      Forall (λ y, ¬ identified i y) pre ∧ identified i x ∧
      InMemoryDatabase.findById i s = (Returned (Some x), s)) ∨
   (Forall (λ y, ¬ identified i y) s ∧
    InMemoryDatabase.findById i s = (Returned None, s))).
Proof.
  split.
  - unfold InMemoryDatabase.findById, InMemoryDatabase.find, bind, get, ret.
    f_equal. f_equal. apply array_find_ext. intros x.
    by rewrite matches_singleton.
  - destruct (first_split (InMemoryDatabase.has_id i) s)
      as [Hnone | (pre & x & post & -> & Hpre & Hx)].
    + right. apply Forall_has_id_false in Hnone.
      split; [done | by apply findById_none].
    + left. apply Forall_has_id_false in Hpre. apply has_id_true in Hx.
      exists pre, x, post. split_and!; try done. by apply findById_first.
Qed.

(** C7.  [create] returns and leaves the store with the record appended,
    whatever identifiers the record and the store carry. *)
Theorem create_appends (s : list T) (r : T) :
  InMemoryDatabase.create r s = (Returned (), s ++ [r]).
Proof. reflexivity. Qed.

(** C9.  [find], [findById] and [filter] return, never throw, and leave
    the store as it is; when no record matches, [find] and [findById]
    return nothing and [filter] returns no record. *)
Theorem reads_leave_store (s : list T) (obj : object) (i : string)
    (arg : option object) :
  (∃ r, InMemoryDatabase.find obj s = (Returned r, s) ∧
        (r = None ↔ Forall (λ x, ¬ satisfies obj x) s)) ∧
  (∃ r, InMemoryDatabase.findById i s = (Returned r, s) ∧
        (r = None ↔ Forall (λ x, ¬ identified i x) s)) ∧
  (∃ rs, InMemoryDatabase.filter arg s = (Returned rs, s) ∧
         match arg with
         | None => InMemoryDatabase.contents rs = s
         | Some o =>
             InMemoryDatabase.contents rs = [] ↔
             Forall (λ x, ¬ satisfies o x) s
         end).
Proof.
  split_and!.
  - eexists. split; [apply find_first_match |].
    rewrite array_find_none. apply Forall_iff. intros x.
    rewrite <- matches_true. by destruct (InMemoryDatabase.matches obj x).
  - eexists. split; [reflexivity |].
    rewrite array_find_none. apply Forall_has_id_false.
  - destruct arg as [o|].
    + destruct (filter_contents o s) as (rs & Hfilter & Hrs).
      exists rs. split; [done |]. rewrite Hrs. apply filter_none_iff.
    + by eexists.
Qed.

(** C10.  With an object that has no keys, [find] returns the first record
    of the store, and nothing only when the store is empty; [filter]
    returns the store itself. *)
Theorem find_empty_returns_head (s : list T) :
  InMemoryDatabase.find ∅ s = (Returned (head s), s) ∧
  (head s = None ↔ s = []) ∧
  InMemoryDatabase.filter (Some ∅) s =
    (Returned (InMemoryDatabase.TheStore s), s).
Proof.
  split_and!.
  - rewrite find_first_match. destruct s as [|x s]; simpl; [done |].
    by rewrite matches_empty.
  - by destruct s.
  - apply filter_empty.
Qed.
End reads.

(** ** The adapter *)

(** C8.  [getById] throws "User not found" exactly when [findById] returns
    nothing; when [findById] returns a user, [getById] returns that user.
    It throws no other error, [findById] itself never throws, and the
    database is left as it is. *)
Theorem getById_not_found_iff (s : UserAdapterImpl.adapter) (i : string) :
  (result (UserAdapterImpl.getById i) s = Thrown "User not found" ↔
   result (InMemoryDatabase.findById i) s = Returned None) ∧
  (∀ u, result (InMemoryDatabase.findById i) s = Returned (Some u) →
        UserAdapterImpl.getById i s = (Returned u, s)) ∧
  (∀ message, result (UserAdapterImpl.getById i) s = Thrown message →
              message = "User not found") ∧
  (∃ r, InMemoryDatabase.findById i s = (Returned r, s)) ∧
  after (UserAdapterImpl.getById i) s = s.
Proof.
  unfold UserAdapterImpl.getById, InMemoryDatabase.findById, result, after,
    bind, get, ret, throw. simpl.
  destruct (array_find (InMemoryDatabase.has_id i) s) as [u|]; simpl.
  - split_and!; try done.
    + intros v [= ->]. done.
    + by eexists.
  - split_and!; try done.
    + by intros message [= <-].
    + by eexists.
Qed.

(** ** The scenario of the specification, end to end *)

Example scenario :
  let alice := mkUser "1" "alice" "pw" in
  let alice2 := mkUser "1" "alice2" "pw" in
  let s1 := after (UserAdapterImpl.add alice) UserAdapterImpl.new in
  let s2 := after (InMemoryDatabase.update "1" alice2) s1 in
  let s3 := after (InMemoryDatabase.delete "1") s2 in
  result (InMemoryDatabase.findById "1") s1 = Returned (Some alice) ∧
  result (InMemoryDatabase.update "1" alice2) s1 = Returned alice2 ∧
  result (InMemoryDatabase.findById "1") s2 = Returned (Some alice2) ∧
  result (InMemoryDatabase.delete "1") s2 = Returned () ∧
  result (InMemoryDatabase.findById "1") s3 = Returned None ∧
  result (UserAdapterImpl.getById "1") s3 = Thrown "User not found".
Proof. by vm_compute. Qed.

(** ** More on the read operations *)

Lemma strict_eq_nan (a : value) : strict_eq a VNaN = false.
Proof. by destruct a. Qed.

Section more_reads.
Context {T : Type} `{Indexable T}.
Implicit Types (s pre post : list T) (x item : T) (i : string) (obj : object).

Lemma array_find_head_filter (f : T → bool) s :
  array_find f s = head (array_filter f s).
Proof.
  induction s as [|y s IH]; simpl; [done |]. by destruct (f y).
Qed.

Lemma satisfies_weaken obj1 obj2 x :
  obj1 ⊆ obj2 → satisfies obj2 x → satisfies obj1 x.
Proof.
  intros Hsub Hobj key v Hkey. apply Hobj. by eapply lookup_weaken.
Qed.

Lemma satisfies_nan obj key x : obj !! key = Some VNaN → ¬ satisfies obj x.
Proof.
  intros Hkey Hobj. specialize (Hobj key VNaN Hkey). simpl in Hobj.
  by rewrite strict_eq_nan in Hobj.
Qed.

(** [update] and [delete] throw exactly when [findById] on the same
    identifier returns nothing; when it returns a record, both return. *)
Theorem write_guard_is_findById (s : list T) (i : string) (item : T) :
  (result (InMemoryDatabase.findById i) s = Returned None ↔
   result (InMemoryDatabase.update i item) s = Thrown "Item not found") ∧
  (result (InMemoryDatabase.findById i) s = Returned None ↔
   result (InMemoryDatabase.delete i) s = Thrown "Item not found") ∧
  (∀ x, result (InMemoryDatabase.findById i) s = Returned (Some x) →
        result (InMemoryDatabase.update i item) s = Returned item ∧
        result (InMemoryDatabase.delete i) s = Returned ()).
Proof.
  unfold result.
  destruct (first_split (InMemoryDatabase.has_id i) s)
    as [Hnone | (pre & x & post & -> & Hpre & Hx)].
  - apply Forall_has_id_false in Hnone.
    rewrite findById_none, update_miss, delete_miss by done. simpl.
    split_and!; [done | done |]. intros x [=].
  - apply Forall_has_id_false in Hpre. apply has_id_true in Hx.
    rewrite (findById_first i pre x post), (update_hit i item pre x post),
      (delete_hit i pre x post) by done. simpl.
    split_and!; [done | done |]. by intros y _.
Qed.

(** [find] returns the first of the records that [filter] returns for the
    same object, and nothing when [filter] returns none. *)
Theorem find_is_head_of_filter (s : list T) (obj : object) :
  ∃ rs, InMemoryDatabase.filter (Some obj) s = (Returned rs, s) ∧
        InMemoryDatabase.find obj s =
          (Returned (head (InMemoryDatabase.contents rs)), s).
Proof.
  unfold InMemoryDatabase.filter, InMemoryDatabase.find, bind, get, ret.
  case_bool_decide as Hobj; eexists; (split; [done |]); simpl.
  - apply keys_empty_iff in Hobj as ->.
    destruct s as [|x s]; simpl; [done |]. by rewrite matches_empty.
  - by rewrite array_find_head_filter.
Qed.

(** An object with more pairs selects fewer records: what [filter] returns
    for it is what remains of the records returned for the smaller object
    after keeping those that agree with the larger one. *)
Theorem filter_more_pairs (s : list T) (obj1 obj2 : object) :
  obj1 ⊆ obj2 →
  ∃ rs1 rs2,
    InMemoryDatabase.filter (Some obj1) s = (Returned rs1, s) ∧
    InMemoryDatabase.filter (Some obj2) s = (Returned rs2, s) ∧
    InMemoryDatabase.contents rs2 =
      base.filter (satisfies obj2) (InMemoryDatabase.contents rs1) ∧
    InMemoryDatabase.contents rs2 `sublist_of` InMemoryDatabase.contents rs1.
Proof.
  intros Hsub.
  destruct (filter_contents obj1 s) as (rs1 & Hfilter1 & Hrs1).
  destruct (filter_contents obj2 s) as (rs2 & Hfilter2 & Hrs2).
  exists rs1, rs2.
  assert (InMemoryDatabase.contents rs2 =
            base.filter (satisfies obj2) (InMemoryDatabase.contents rs1))
    as Heq.
  { rewrite Hrs1, Hrs2, list_filter_filter. apply list_filter_iff.
    intros x. split; [| tauto].
    intros Hx. split; [done | by eapply satisfies_weaken]. }
  split_and!; [done | done | done |].
  rewrite Heq. apply sublist_filter.
Qed.

(** An object that asks for NaN under some key matches no record: [find]
    returns nothing and [filter] returns no record, whatever the store
    holds. *)
Theorem nan_matches_nothing (s : list T) (obj : object) (key : string) :
  obj !! key = Some VNaN →
  InMemoryDatabase.find obj s = (Returned None, s) ∧
  ∃ rs, InMemoryDatabase.filter (Some obj) s = (Returned rs, s) ∧
        InMemoryDatabase.contents rs = [].
Proof.
  intros Hkey.
  assert (Forall (λ x, ¬ satisfies obj x) s) as Hnone.
  { apply Forall_forall. intros x _. by eapply satisfies_nan. }
  split.
  - rewrite find_first_match. f_equal. f_equal.
    apply array_find_none. eapply Forall_impl; [exact Hnone |].
    intros x Hx. simpl in Hx. rewrite <- matches_true in Hx.
    by destruct (InMemoryDatabase.matches obj x).
  - destruct (filter_contents obj s) as (rs & Hfilter & Hrs).
    exists rs. split; [done |]. rewrite Hrs. by apply filter_none_iff.
Qed.
End more_reads.

Lemma filter_more_pairs_witness :
  let s := [mkUser "1" "alice" "pw"; mkUser "2" "bob" "pw"] in
  let obj1 : object := {["password" := VStr "pw"]} in
  let obj2 : object := <["username" := VStr "bob"]> obj1 in
  ∃ rs1 rs2,
    InMemoryDatabase.filter (Some obj1) s = (Returned rs1, s) ∧
    InMemoryDatabase.filter (Some obj2) s = (Returned rs2, s) ∧
    InMemoryDatabase.contents rs2 `sublist_of` InMemoryDatabase.contents rs1.
Proof.
  intros s obj1 obj2.
  destruct (filter_more_pairs s obj1 obj2) as (rs1 & rs2 & H1 & H2 & _ & Hsub).
  - apply insert_subseteq. vm_compute. reflexivity.
  - exists rs1, rs2. split_and!; assumption.
Defined.

Lemma nan_matches_nothing_witness :
  let s := [{["score" := VNaN]} : object; {["score" := VNum 3]}] in
  InMemoryDatabase.find {["score" := VNaN]} s = (Returned None, s) ∧
  ∃ rs, InMemoryDatabase.filter (Some {["score" := VNaN]}) s = (Returned rs, s) ∧
        InMemoryDatabase.contents rs = [].
Proof.
  intros s. apply (nan_matches_nothing s {["score" := VNaN]} "score").
  vm_compute. reflexivity.
Defined.


(** ** More on update, delete and create *)

Section more_writes.
Context {T : Type} `{Indexable T}.
Implicit Types (s pre post : list T) (x item : T) (i j : string).

Lemma filter_identified_has_id i s :
  base.filter (identified i) s = array_filter (InMemoryDatabase.has_id i) s.
Proof.
  rewrite array_filter_filter. apply list_filter_iff.
  intros x. symmetry. apply has_id_true.
Qed.

Lemma array_find_skip (f : T → bool) pre post :
  Forall (λ y, f y = false) pre → array_find f (pre ++ post) = array_find f post.
Proof.
  intros Hpre. rewrite array_find_app. by apply array_find_none in Hpre as ->.
Qed.

(** [delete] removes one record only: [findById] on the same identifier
    afterwards returns the second record that carried it, and nothing when
    at most one did. *)
Theorem delete_then_findById (s : list T) (i : string) :
  result (InMemoryDatabase.findById i) (after (InMemoryDatabase.delete i) s) =
    Returned (base.filter (identified i) s !! 1%nat).
Proof.
  unfold result, after.
  destruct (first_split (InMemoryDatabase.has_id i) s)
    as [Hnone | (pre & x & post & -> & Hpre & Hx)].
  - pose proof Hnone as Hs%Forall_has_id_false.
    rewrite delete_miss, findById_none by done. simpl.
    by rewrite (proj2 (filter_none_iff (identified i) s) Hs).
  - pose proof Hpre as Hpre'%Forall_has_id_false. pose proof Hx as Hx'%has_id_true.
    rewrite (delete_hit i pre x post) by done. simpl.
    unfold InMemoryDatabase.findById, bind, get, ret. simpl.
    rewrite array_find_skip by done.
    rewrite filter_app, filter_cons_True by done.
    rewrite (proj2 (filter_none_iff (identified i) pre) Hpre'). simpl.
    rewrite filter_identified_has_id, array_find_head_filter.
    by destruct (array_filter (InMemoryDatabase.has_id i) post).
Qed.

(** [delete] on one identifier does not change what [findById] returns for
    another. *)
Theorem delete_spares_other_ids (s : list T) (i j : string) :
  j ≠ i →
  result (InMemoryDatabase.findById j) (after (InMemoryDatabase.delete i) s) =
    result (InMemoryDatabase.findById j) s.
Proof.
  intros Hne. unfold result, after.
  destruct (first_split (InMemoryDatabase.has_id i) s)
    as [Hnone | (pre & x & post & -> & Hpre & Hx)].
  - apply Forall_has_id_false in Hnone. by rewrite delete_miss.
  - apply Forall_has_id_false in Hpre. apply has_id_true in Hx.
    rewrite (delete_hit i pre x post) by done. simpl.
    rewrite !array_find_app. simpl.
    by rewrite (has_id_other j i x).
Qed.

(** [update] on one identifier does not change what [findById] returns for
    another, as long as the replacement does not carry that other
    identifier. *)
Theorem update_spares_other_ids (s : list T) (i j : string) (item : T) :
  j ≠ i → ¬ identified j item →
  result (InMemoryDatabase.findById j)
    (after (InMemoryDatabase.update i item) s) =
    result (InMemoryDatabase.findById j) s.
Proof.
  intros Hne Hitem%has_id_false. unfold result, after.
  destruct (first_split (InMemoryDatabase.has_id i) s)
    as [Hnone | (pre & x & post & -> & Hpre & Hx)].
  - apply Forall_has_id_false in Hnone. by rewrite update_miss.
  - apply Forall_has_id_false in Hpre. apply has_id_true in Hx.
    rewrite (update_hit i item pre x post) by done. simpl.
    rewrite !array_find_app. simpl.
    by rewrite (has_id_other j i x), Hitem.
Qed.

(** Creating a record under an identifier that no stored record carries and
    then deleting that identifier gives back the store as it was. *)
Theorem create_then_delete (s : list T) (r : T) (i : string) :
  identified i r →
  Forall (λ x, ¬ identified i x) s →
  InMemoryDatabase.delete i (after (InMemoryDatabase.create r) s) =
    (Returned (), s).
Proof.
  intros Hr Hs.
  change (after (InMemoryDatabase.create r) s) with (s ++ [r]).
  rewrite (delete_hit i s r []) by done. by rewrite app_nil_r.
Qed.

(** Two updates of the same identifier, the first with a record that
    carries it: the store is as after the second update alone. *)
Theorem update_twice (s : list T) (i : string) (item1 item2 : T) :
  identified i item1 →
  InMemoryDatabase.update i item2 (after (InMemoryDatabase.update i item1) s) =
    InMemoryDatabase.update i item2 s.
Proof.
  intros Hitem. unfold after.
  destruct (first_split (InMemoryDatabase.has_id i) s)
    as [Hnone | (pre & x & post & -> & Hpre & Hx)].
  - apply Forall_has_id_false in Hnone.
    by rewrite (update_miss i item1 s).
  - apply Forall_has_id_false in Hpre. apply has_id_true in Hx.
    rewrite (update_hit i item1 pre x post) by done. simpl.
    by rewrite (update_hit i item2 pre item1 post), (update_hit i item2 pre x post).
Qed.

(** The length of the store after a call: one more after [create], one less
    after a [delete] that finds a record, and the same after every other
    call, thrown or returned. *)
Theorem length_after_call (s : list T) (c : call) :
  Z.of_nat (length (step c s)) = Z.of_nat (length s) + growth c s.
Proof.
  destruct c as [obj|id|obj|item|id item|id];
    try (rewrite step_read by done; simpl; lia).
  - rewrite step_create, length_app. simpl. lia.
  - simpl. unfold after.
    destruct (first_split (InMemoryDatabase.has_id id) s)
      as [Hnone | (pre & x & post & -> & Hpre & Hx)].
    + apply Forall_has_id_false in Hnone. rewrite update_miss by done. simpl. lia.
    + apply Forall_has_id_false in Hpre. apply has_id_true in Hx.
      rewrite (update_hit id item pre x post) by done. simpl.
      rewrite !length_app. simpl. lia.
  - simpl. unfold after.
    destruct (first_split (InMemoryDatabase.has_id id) s)
      as [Hnone | (pre & x & post & -> & Hpre & Hx)].
    + replace (existsb (InMemoryDatabase.has_id id) s) with false.
      * apply Forall_has_id_false in Hnone. rewrite delete_miss by done.
        simpl. lia.
      * symmetry. apply not_true_is_false.
        intros (y & Hin & Hy)%existsb_exists.
        rewrite Forall_forall in Hnone.
        apply list_elem_of_In in Hin. specialize (Hnone y Hin). congruence.
    + replace (existsb (InMemoryDatabase.has_id id) (pre ++ x :: post))
        with true.
      * apply Forall_has_id_false in Hpre. apply has_id_true in Hx.
        rewrite (delete_hit id pre x post) by done. simpl.
        rewrite !length_app. simpl. lia.
      * symmetry. apply existsb_exists. exists x. split; [| done].
        apply in_or_app. right. by left.
Qed.
End more_writes.

Lemma delete_spares_other_ids_witness :
  let s := [mkUser "1" "alice" "pw"; mkUser "2" "bob" "pw2"] in
  result (InMemoryDatabase.findById "2") (after (InMemoryDatabase.delete "1") s) =
    result (InMemoryDatabase.findById "2") s.
Proof. intros s. apply (delete_spares_other_ids s "1" "2"). discriminate. Defined.

Lemma update_spares_other_ids_witness :
  let s := [mkUser "1" "alice" "pw"; mkUser "2" "bob" "pw2"] in
  let item := mkUser "1" "alice2" "pw" in
  result (InMemoryDatabase.findById "2")
    (after (InMemoryDatabase.update "1" item) s) =
    result (InMemoryDatabase.findById "2") s.
Proof.
  intros s item. apply (update_spares_other_ids s "1" "2" item).
  - discriminate.
  - vm_compute. discriminate.
Defined.

Lemma create_then_delete_witness :
  let s := [mkUser "1" "alice" "pw"] in
  InMemoryDatabase.delete "2"
    (after (InMemoryDatabase.create (mkUser "2" "bob" "pw2")) s) =
    (Returned (), s).
Proof.
  intros s. apply (create_then_delete s (mkUser "2" "bob" "pw2") "2").
  - reflexivity.
  - repeat constructor. vm_compute. discriminate.
Defined.

Lemma update_twice_witness :
  let s := [mkUser "1" "alice" "pw"; mkUser "1" "old" "pw"] in
  let item1 := mkUser "1" "alice2" "pw" in
  let item2 := mkUser "1" "alice3" "pw" in
  InMemoryDatabase.update "1" item2 (after (InMemoryDatabase.update "1" item1) s) =
    InMemoryDatabase.update "1" item2 s.
Proof. intros s item1 item2. apply (update_twice s "1" item1 item2). reflexivity. Defined.

(** ** Stores with unique identifiers *)

Section unique_ids.
Context {T : Type} `{Indexable T}.
Implicit Types (s pre post : list T) (x item : T) (i : string).

Lemma ids_app s1 s2 : ids (s1 ++ s2) = ids s1 ++ ids s2.
Proof. apply fmap_app. Qed.

Lemma ids_middle pre x post :
  ids (pre ++ x :: post) = ids pre ++ prop x "id" :: ids post.
Proof. by rewrite ids_app. Qed.

Lemma not_identified_of_ids i s :
  VStr i ∉ ids s → Forall (λ y, ¬ identified i y) s.
Proof.
  intros Hnotin. apply Forall_forall. intros y Hy Hid. apply Hnotin.
  unfold ids. apply list_elem_of_fmap. exists y. by split.
Qed.

(** With unique identifiers, the record under [i] has no other record
    under [i] before it or after it. *)
Lemma unique_ids_split i pre x post :
  NoDup (ids (pre ++ x :: post)) → identified i x →
  Forall (λ y, ¬ identified i y) pre ∧ Forall (λ y, ¬ identified i y) post.
Proof.
  rewrite ids_middle. intros (_ & Hpre & Hpost)%NoDup_app Hx.
  apply NoDup_cons in Hpost as [Hpost _]. rewrite Hx in Hpre, Hpost.
  split; apply not_identified_of_ids; [| done].
  intros Hin. apply (Hpre _ Hin). by left.
Qed.

(** A caller that creates records only under identifiers not in the store,
    and updates a record only with one carrying the targeted identifier,
    keeps the identifiers of the store unique through every call. *)
Theorem unique_ids_kept (s : list T) (c : call) :
  NoDup (ids s) → disciplined s c → NoDup (ids (step c s)).
Proof.
  intros Hs Hc.
  destruct c as [obj|id|obj|item|id item|id];
    try (by rewrite step_read).
  - rewrite step_create, ids_app. apply NoDup_app. split_and!; [done | |].
    + intros v Hv [->|Hnil]%elem_of_cons; [by apply Hc | inversion Hnil].
    + apply NoDup_singleton.
  - simpl in *. unfold after.
    destruct (first_split (InMemoryDatabase.has_id id) s)
      as [Hnone | (pre & x & post & -> & Hpre & Hx)].
    + apply Forall_has_id_false in Hnone. by rewrite update_miss.
    + apply Forall_has_id_false in Hpre. apply has_id_true in Hx.
      rewrite (update_hit id item pre x post) by done. simpl.
      rewrite ids_middle in Hs |- *. unfold identified in *. congruence.
  - simpl in *. unfold after.
    destruct (first_split (InMemoryDatabase.has_id id) s)
      as [Hnone | (pre & x & post & -> & Hpre & Hx)].
    + apply Forall_has_id_false in Hnone. by rewrite delete_miss.
    + apply Forall_has_id_false in Hpre. apply has_id_true in Hx.
      rewrite (delete_hit id pre x post) by done. simpl.
      rewrite ids_middle in Hs. rewrite ids_app.
      apply NoDup_app in Hs as (Hpre' & Hdisj & [_ Hpost']%NoDup_cons).
      apply NoDup_app. split_and!; [done | | done].
      intros v Hv Hin. apply (Hdisj v Hv). by right.
Qed.

(** With unique identifiers, [findById i] returns a record exactly when the
    store holds it and it carries [i]: the position does not matter. *)
Theorem unique_ids_findById (s : list T) (i : string) (x : T) :
  NoDup (ids s) →
  (result (InMemoryDatabase.findById i) s = Returned (Some x) ↔
   x ∈ s ∧ identified i x).
Proof.
  intros Hs. unfold result, InMemoryDatabase.findById, bind, get, ret. simpl.
  split.
  - intros [= (pre & post & -> & Hpre & Hx)%array_find_some].
    split; [| by apply has_id_true].
    apply elem_of_app. right. by left.
  - intros [(pre & post & ->)%list_elem_of_split Hx].
    destruct (unique_ids_split i pre x post Hs Hx) as [Hpre _].
    f_equal. apply array_find_first;
      [by apply Forall_has_id_false | by apply has_id_true].
Qed.

(** With unique identifiers, [delete i] leaves no record under [i]:
    [findById i] returns nothing afterwards and a second [delete i]
    throws. *)
Theorem unique_ids_delete (s : list T) (i : string) :
  NoDup (ids s) →
  let s' := after (InMemoryDatabase.delete i) s in
  Forall (λ y, ¬ identified i y) s' ∧
  InMemoryDatabase.findById i s' = (Returned None, s') ∧
  InMemoryDatabase.delete i s' = (Thrown "Item not found", s').
Proof.
  intros Hs s'.
  assert (Forall (λ y, ¬ identified i y) s') as Hs'.
  { subst s'. unfold after.
    destruct (first_split (InMemoryDatabase.has_id i) s)
      as [Hnone | (pre & x & post & -> & Hpre & Hx)].
    - apply Forall_has_id_false in Hnone. by rewrite delete_miss.
    - apply Forall_has_id_false in Hpre. apply has_id_true in Hx.
      rewrite (delete_hit i pre x post) by done. simpl.
      destruct (unique_ids_split i pre x post Hs Hx) as [_ Hpost].
      by apply Forall_app. }
  split_and!; [done | by apply findById_none | by apply delete_miss].
Qed.
End unique_ids.

Lemma unique_ids_kept_witness :
  let s := [mkUser "1" "alice" "pw"; mkUser "2" "bob" "pw2"] in
  NoDup (ids (step (Create (mkUser "3" "carol" "x")) s)).
Proof.
  intros s. apply (unique_ids_kept s (Create (mkUser "3" "carol" "x"))).
  - apply (bool_decide_unpack _). vm_compute. exact I.
  - simpl. apply (bool_decide_unpack _). vm_compute. exact I.
Defined.

Lemma unique_ids_findById_witness :
  let s := [mkUser "1" "alice" "pw"; mkUser "2" "bob" "pw2"] in
  let x := mkUser "2" "bob" "pw2" in
  result (InMemoryDatabase.findById "2") s = Returned (Some x) ↔
  x ∈ s ∧ identified "2" x.
Proof.
  intros s x. apply (unique_ids_findById s "2" x).
  apply (bool_decide_unpack _). vm_compute. exact I.
Defined.

Lemma unique_ids_delete_witness :
  let s := [mkUser "1" "alice" "pw"; mkUser "2" "bob" "pw2"] in
  let s' := after (InMemoryDatabase.delete "1") s in
  Forall (λ y, ¬ identified "1" y) s' ∧
  InMemoryDatabase.findById "1" s' = (Returned None, s') ∧
  InMemoryDatabase.delete "1" s' = (Thrown "Item not found", s').
Proof.
  intros s. apply (unique_ids_delete s "1").
  apply (bool_decide_unpack _). vm_compute. exact I.
Defined.

(** ** The adapter, the service and the controller *)

Lemma has_id_user (i : string) (u : User) :
  InMemoryDatabase.has_id i u = bool_decide (id u = i).
Proof.
  unfold InMemoryDatabase.has_id, prop, User_indexable.
  rewrite bool_decide_eq_true_2 by done. simpl.
  apply bool_decide_ext. split; congruence.
Qed.

Lemma register_all_app (rs : list registration) (s : UserAdapterImpl.adapter) :
  register_all rs s = s ++ (registered <$> rs).
Proof.
  revert s. induction rs as [|[[i u] p] rs IH]; intros s; simpl.
  - by rewrite app_nil_r.
  - rewrite IH.
    change (after (UserAdapterImpl.add (mkUser i u p)) s)
      with (s ++ [mkUser i u p]).
    by rewrite <- app_assoc.
Qed.

Lemma array_find_registered (i : string) (rs : list registration) :
  array_find (InMemoryDatabase.has_id i) (registered <$> rs) =
    registered <$> first_registration i rs.
Proof.
  induction rs as [|[[j u] p] rs IH]; simpl; [done |].
  rewrite has_id_user. simpl. by case_bool_decide.
Qed.

(** After [add], [getById] on the identifier of the added user returns the
    user that the store already held under that identifier, and the added
    user when it held none. *)
Theorem add_then_getById (s : UserAdapterImpl.adapter) (u : User) :
  let s' := after (UserAdapterImpl.add u) s in
  UserAdapterImpl.getById (id u) s' =
    (Returned (match result (InMemoryDatabase.findById (id u)) s with
               | Returned (Some old) => old
               | _ => u
               end), s').
Proof.
  intros s'. subst s'.
  change (after (UserAdapterImpl.add u) s) with (s ++ [u]).
  unfold UserAdapterImpl.getById, InMemoryDatabase.findById, result,
    bind, get, ret. simpl.
  rewrite array_find_app.
  destruct (array_find (InMemoryDatabase.has_id (id u)) s) as [old|];
    simpl; [done |].
  rewrite has_id_user. by rewrite bool_decide_eq_true_2.
Qed.

(** A controller wired to a new adapter, after any sequence of [createUser]
    calls: every call returned and stored its user, in call order and
    whatever the identifiers; [getUser i] returns the user of the first call
    made with [i], throws "User not found" when there was none, and leaves
    the stored users as they are. *)
Theorem controller_first_registration (rs : list registration) (i : string) :
  let c := register_all rs UserAdapterImpl.new in
  c = registered <$> rs ∧
  UserController.getUser i c =
    (match first_registration i rs with
     | Some r => Returned (registered r)
     | None => Thrown "User not found"
     end, c).
Proof.
  intros c. assert (c = registered <$> rs) as Hc.
  { subst c. by rewrite register_all_app. }
  split; [done |]. rewrite Hc.
  change (UserController.getUser i) with (UserAdapterImpl.getById i).
  unfold UserAdapterImpl.getById, InMemoryDatabase.findById, bind, get, ret.
  simpl. rewrite array_find_registered.
  by destruct (first_registration i rs).
Qed.

(** ** create and update, seen through the read operations *)

Section writes_then_reads.
Context {T : Type} `{Indexable T}.
Implicit Types (s pre post : list T) (x item : T) (i : string) (obj : object).

(** After [create], [filter] with an object returns what it returned
    before, followed by the new record when that record agrees with the
    object; [find] returns what it returned before when that was a record,
    and otherwise the new record when it agrees with the object. *)
Theorem create_then_filter (s : list T) (r : T) (obj : object) :
  let s' := after (InMemoryDatabase.create r) s in
  (∃ rs rs',
     InMemoryDatabase.filter (Some obj) s = (Returned rs, s) ∧
     InMemoryDatabase.filter (Some obj) s' = (Returned rs', s') ∧
     InMemoryDatabase.contents rs' =
       InMemoryDatabase.contents rs ++
       (if decide (satisfies obj r) then [r] else [])) ∧
  InMemoryDatabase.find obj s' =
    (Returned (match result (InMemoryDatabase.find obj) s with
               | Returned (Some x) => Some x
               | _ => if decide (satisfies obj r) then Some r else None
               end), s').
Proof.
  intros s'. subst s'.
  change (after (InMemoryDatabase.create r) s) with (s ++ [r]).
  split.
  - destruct (filter_contents obj s) as (rs & Hfilter & Hrs).
    destruct (filter_contents obj (s ++ [r])) as (rs' & Hfilter' & Hrs').
    exists rs, rs'. split_and!; [done | done |].
    by rewrite Hrs, Hrs', filter_app.
  - rewrite !find_first_match. unfold result. simpl.
    rewrite array_find_app.
    destruct (array_find (InMemoryDatabase.matches obj) s); [done |]. simpl.
    destruct (InMemoryDatabase.matches obj r) eqn:Hr.
    + apply matches_true in Hr. by rewrite decide_True.
    + rewrite decide_False; [done |]. rewrite <- matches_true. congruence.
Qed.

(** An [update] of [i] with a record that does not carry [i] takes the
    first record under [i] out of the reach of [findById i], which then
    returns the second record that carried [i], and nothing when at most one
    did. *)
Theorem update_to_other_id (s : list T) (i : string) (item : T) :
  ¬ identified i item →
  result (InMemoryDatabase.findById i)
    (after (InMemoryDatabase.update i item) s) =
    Returned (base.filter (identified i) s !! 1%nat).
Proof.
  intros Hitem. unfold result, after.
  destruct (first_split (InMemoryDatabase.has_id i) s)
    as [Hnone | (pre & x & post & -> & Hpre & Hx)].
  - pose proof Hnone as Hs%Forall_has_id_false.
    rewrite update_miss, findById_none by done. simpl.
    by rewrite (proj2 (filter_none_iff (identified i) s) Hs).
  - pose proof Hpre as Hpre'%Forall_has_id_false.
    pose proof Hx as Hx'%has_id_true.
    rewrite (update_hit i item pre x post) by done. simpl.
    unfold InMemoryDatabase.findById, bind, get, ret. simpl.
    rewrite array_find_skip by done. simpl.
    apply has_id_false in Hitem. rewrite Hitem.
    rewrite filter_app, filter_cons_True by done.
    rewrite (proj2 (filter_none_iff (identified i) pre) Hpre'). simpl.
    rewrite filter_identified_has_id, array_find_head_filter.
    by destruct (array_filter (InMemoryDatabase.has_id i) post).
Qed.
End writes_then_reads.

Lemma update_to_other_id_witness :
  let s := [mkUser "1" "alice" "pw"; mkUser "1" "old" "pw"] in
  let item := mkUser "9" "alice" "pw" in
  result (InMemoryDatabase.findById "1")
    (after (InMemoryDatabase.update "1" item) s) =
    Returned (base.filter (identified "1") s !! 1%nat).
Proof.
  intros s item. apply (update_to_other_id s "1" item).
  vm_compute. discriminate.
Defined.
